(** * Verification of the dummy QHY camera stub (cameras/qhy/dummyqhy.c)

    The C file exports two functions, [DummyGetQHYCCDSingleFrame] and
    [DummyBufferAddress].  Both are embedded here over a flat, byte-addressed
    memory: a pointer is an address (a [Z], [NULL] being 0), memory is a
    finite map from the allocated addresses to their bytes, a [uint32_t]
    object occupies four consecutive bytes (least significant byte first),
    and [stderr] is a list of the lines printed so far.  A store through a
    null pointer or to an address that is not allocated stops the execution
    with a fault, so that "the call does not fault" is a statement about the
    model and not an assumption of it.  The machine also records every store
    it performs, in order, which is what "writes nothing" and "writes only
    there" are about. *)

From Stdlib Require Import ZArith List Lia Bool.
From stdpp Require Import base option gmap fin_maps.
From Equations Require Import Equations.
Import ListNotations.

#[local] Open Scope Z_scope.

(** ** Machine values *)

(** Pointers are addresses; [void*], [uint32_t*] and [uint8_t*] differ only
    in the width of the access made through them. *)
Abbreviation ptr := Z (only parsing).

Definition NULL : ptr := 0.

(** The width of a pointer and of [uintptr_t]. *)
Definition ptr_bits : Z := 64.

(** A pointer value the machine can represent. *)
Definition ptr_wf (p : ptr) : Prop := 0 <= p < 2 ^ ptr_bits.

(** [(uint8_t) x], [(uint32_t) x] and [(uintptr_t) x]. *)
Definition to_uint8 (x : Z) : Z := x mod 2 ^ 8.
Definition to_uint32 (x : Z) : Z := x mod 2 ^ 32.
Definition to_uintptr (x : Z) : Z := x mod 2 ^ ptr_bits.

(** The test [if (p)] on a pointer. *)
Definition nonnull (p : ptr) : bool := negb (p =? NULL).

(** ** Memory, accesses and the diagnostic stream *)

(** One store performed by the program: the address, and the value after
    conversion to the type of the object stored. *)
Inductive access : Type :=
| Write32 (addr : Z) (val : Z)
| Write8 (addr : Z) (val : Z).

(** The lines the two functions print to [stderr], by their arguments. *)
Inductive log_event : Type :=
| LogInputs (handle w h bpp ch imgdata : ptr)
| LogImgdataNull
| LogBufferAddress (imgdata : ptr).

Record machine : Type := Machine {
  mem : gmap Z Z;
  writes : list access;
  stderr : list log_event
}.

Inductive fault : Type :=
| NullDeref
| BadAccess (addr : Z).

Inductive outcome (A : Type) : Type :=
| Done (a : A) (s : machine)
| Fault (f : fault).

Arguments Done {A} a s.
Arguments Fault {A} f.

(** Byte [k] of a 32-bit value, least significant first. *)
Definition byte_of (v : Z) (k : Z) : Z := Z.land (Z.shiftr v (8 * k)) 255.

(** The bytes a store puts in memory, in increasing address order. *)
Definition bytes_of_access (a : access) : list (Z * Z) :=
  match a with
  | Write32 p v => [(p, byte_of v 0); (p + 1, byte_of v 1);
                    (p + 2, byte_of v 2); (p + 3, byte_of v 3)]
  | Write8 p v => [(p, v)]
  end.

Definition put_bytes (bs : list (Z * Z)) (m : gmap Z Z) : gmap Z Z :=
  fold_left (fun m ab => <[fst ab := snd ab]> m) bs m.

(** The first of the addresses in [bs] that is not allocated in [m]. *)
Fixpoint first_unallocated (bs : list (Z * Z)) (m : gmap Z Z) : option Z :=
  match bs with
  | [] => None
  | (a, _) :: bs' =>
      match m !! a with
      | Some _ => first_unallocated bs' m
      | None => Some a
      end
  end.

(** Reading a [uint32_t] and a [uint8_t] object back. *)
Definition load_u8 (m : gmap Z Z) (p : ptr) : option Z := m !! p.

Definition load_u32 (m : gmap Z Z) (p : ptr) : option Z :=
  match m !! p, m !! (p + 1), m !! (p + 2), m !! (p + 3) with
  | Some b0, Some b1, Some b2, Some b3 =>
      Some (b0 + 2 ^ 8 * b1 + 2 ^ 16 * b2 + 2 ^ 24 * b3)
  | _, _, _, _ => None
  end.

(** ** The execution monad: state and faults *)

Definition M (A : Type) : Type := machine -> outcome A.

Definition ret {A : Type} (a : A) : M A := fun s => Done a s.

Definition bind {A B : Type} (c : M A) (k : A -> M B) : M B :=
  fun s =>
    match c s with
    | Done a s' => k a s'
    | Fault f => Fault f
    end.

Declare Scope exec_scope.
Delimit Scope exec_scope with exec.
Notation "x <- c ;; k" := (bind c (fun x => k))
  (at level 100, c at next level, right associativity) : exec_scope.
Notation "c ;; k" := (bind c (fun _ => k))
  (at level 100, right associativity) : exec_scope.
#[local] Open Scope exec_scope.

(** A store of [a] through the pointer [base] ([*base = v] or
    [base[i] = v]): dereferencing [NULL] and touching an address that is not
    allocated are faults. *)
Definition store (base : ptr) (a : access) : M unit :=
  fun s =>
    if base =? NULL then Fault NullDeref
    else
      match first_unallocated (bytes_of_access a) (mem s) with
      | Some bad => Fault (BadAccess bad)
      | None =>
          Done tt {| mem := put_bytes (bytes_of_access a) (mem s);
                     writes := writes s ++ [a];
                     stderr := stderr s |}
      end.

(** [*p = v] for [uint32_t *p]. *)
Definition store_u32 (p : ptr) (v : Z) : M unit :=
  store p (Write32 p (to_uint32 v)).

(** [p[i] = v] for [uint8_t *p]. *)
Definition store_u8 (p : ptr) (i : Z) (v : Z) : M unit :=
  store p (Write8 (p + i) (to_uint8 v)).

(** [fprintf(stderr, ...)]. *)
Definition fprintf_stderr (e : log_event) : M unit :=
  fun s => Done tt {| mem := mem s; writes := writes s;
                      stderr := stderr s ++ [e] |}.

(** [if (c) body;] *)
Definition when (c : bool) (body : M unit) : M unit :=
  if c then body else ret tt.

(** ** The two functions of dummyqhy.c *)

(** [for (int i = ...; i < 32; ++i) imgdata[i] = (uint8_t)(i & 0xFF);]
    from the current value of [i]. *)
Equations? fill_pattern (imgdata : ptr) (i : Z) (s : machine) : outcome unit
  by wf (Z.to_nat (32 - i)) lt :=
  fill_pattern imgdata i s with Z_lt_dec i 32 := {
    | left _ =>
        match store_u8 imgdata i (Z.land i 255) s with
        | Done _ s' => fill_pattern imgdata (i + 1) s'
        | Fault f => Fault f
        end
    | right _ => Done tt s
  }.
Proof. lia. Qed.

Definition DummyGetQHYCCDSingleFrame
  (handle w h bpp ch imgdata : ptr) : M Z :=
  fprintf_stderr (LogInputs handle w h bpp ch imgdata) ;;
  when (nonnull w) (store_u32 w 8) ;;
  when (nonnull h) (store_u32 h 4) ;;
  when (nonnull bpp) (store_u32 bpp 8) ;;
  when (nonnull ch) (store_u32 ch 1) ;;
  if nonnull imgdata then
    fill_pattern imgdata 0 ;;
    ret 0
  else
    fprintf_stderr LogImgdataNull ;;
    ret 1.

Definition DummyBufferAddress (imgdata : ptr) : M Z :=
  fprintf_stderr (LogBufferAddress imgdata) ;;
  ret (to_uintptr imgdata).

(** ** Test memories *)

(** A memory with the addresses [base .. base + n - 1] allocated and every
    byte equal to [fill]. *)
Fixpoint alloc (base : Z) (n : nat) (fill : Z) (m : gmap Z Z) : gmap Z Z :=
  match n with
  | O => m
  | S n' => <[base := fill]> (alloc (base + 1) n' fill m)
  end.

Definition boot (m : gmap Z Z) : machine :=
  {| mem := m; writes := []; stderr := [] |}.

(** Four [uint32_t] objects at 0x100, 0x104, 0x108 and 0x10c and a buffer of
    32 bytes at 0x200, all bytes 0xAA. *)
Definition demo_mem : gmap Z Z := alloc 256 16 170 (alloc 512 32 170 ∅).

Definition demo : machine := boot demo_mem.

(** What a machine shows after a run: the status, the stores, the lines. *)
Definition observe {A : Type} (o : outcome A)
  : option (A * list access * list log_event) :=
  match o with
  | Done a s => Some (a, writes s, stderr s)
  | Fault _ => None
  end.

(** ** Well-formed calls *)

Definition is_alloc (m : gmap Z Z) (a : Z) : bool :=
  match m !! a with Some _ => true | None => false end.

(** [p] points to a [uint32_t] object. *)
Definition valid_u32 (m : gmap Z Z) (p : ptr) : bool :=
  is_alloc m p && is_alloc m (p + 1) && is_alloc m (p + 2) && is_alloc m (p + 3).

(** [p] points to at least 32 bytes. *)
Definition valid_buf (m : gmap Z Z) (p : ptr) : bool :=
  forallb (fun i => is_alloc m (p + i)) (seqZ 0 32).

(** Every destination of the call is either null or points to storage of
    its size: what a C caller owes the function. *)
Definition valid_call (m : gmap Z Z) (w h bpp ch imgdata : ptr) : bool :=
  (negb (nonnull w) || valid_u32 m w) &&
  (negb (nonnull h) || valid_u32 m h) &&
  (negb (nonnull bpp) || valid_u32 m bpp) &&
  (negb (nonnull ch) || valid_u32 m ch) &&
  (negb (nonnull imgdata) || valid_buf m imgdata).

(** Address [a] lies in the [uint32_t] object at a non-null [p], resp. in
    the first 32 bytes at a non-null [p]. *)
Definition in_cell (p : ptr) (a : Z) : bool :=
  nonnull p && (p <=? a) && (a <? p + 4).

Definition in_buffer (p : ptr) (a : Z) : bool :=
  nonnull p && (p <=? a) && (a <? p + 32).

(** The [uint32_t] object at [p] shares a byte with the one at a non-null
    [q], resp. with the first 32 bytes at a non-null [q]. *)
Definition overlaps_cell (p q : ptr) : bool :=
  nonnull q && (q - 4 <? p) && (p <? q + 4).

Definition overlaps_buffer (p q : ptr) : bool :=
  nonnull q && (q - 4 <? p) && (p <? q + 32).

(** ** The stores of a call, as a list *)

(** The last value written to address [a] by the byte stores [bs]. *)
Fixpoint last_write (a : Z) (bs : list (Z * Z)) : option Z :=
  match bs with
  | [] => None
  | (a', v) :: bs' =>
      match last_write a bs' with
      | Some v' => Some v'
      | None => if a' =? a then Some v else None
      end
  end.

Definition bytes_of (ws : list access) : list (Z * Z) :=
  flat_map bytes_of_access ws.

Definition descriptor_write (p : ptr) (v : Z) : list access :=
  if nonnull p then [Write32 p (to_uint32 v)] else [].

Definition descriptor_writes (w h bpp ch : ptr) : list access :=
  descriptor_write w 8 ++ descriptor_write h 4 ++
  descriptor_write bpp 8 ++ descriptor_write ch 1.

Definition pattern_write (p : ptr) (i : Z) : access :=
  Write8 (p + i) (to_uint8 (Z.land i 255)).

Definition pattern_writes (p : ptr) (i : Z) : list access :=
  map (pattern_write p) (seqZ i (32 - i)).

Definition buffer_writes (imgdata : ptr) : list access :=
  if nonnull imgdata then pattern_writes imgdata 0 else [].

Definition capture_writes (w h bpp ch imgdata : ptr) : list access :=
  descriptor_writes w h bpp ch ++ buffer_writes imgdata.

Definition capture_status (imgdata : ptr) : Z :=
  if nonnull imgdata then 0 else 1.

Definition capture_log (handle w h bpp ch imgdata : ptr) : list log_event :=
  LogInputs handle w h bpp ch imgdata ::
  (if nonnull imgdata then [] else [LogImgdataNull]).

(** The machine after the stores [ws] and the lines [ls]. *)
Definition after (ws : list access) (ls : list log_event) (s : machine) : machine :=
  {| mem := put_bytes (bytes_of ws) (mem s);
     writes := writes s ++ ws;
     stderr := stderr s ++ ls |}.

(** Last store wins: the buffer is filled after [ch], [bpp], [h] and [w]
    were set, in this order. *)
Definition final_byte (w h bpp ch imgdata : ptr) (a : Z) : option Z :=
  if in_buffer imgdata a then Some (to_uint8 (Z.land (a - imgdata) 255))
  else if in_cell ch a then Some (byte_of (to_uint32 1) (a - ch))
  else if in_cell bpp a then Some (byte_of (to_uint32 8) (a - bpp))
  else if in_cell h a then Some (byte_of (to_uint32 4) (a - h))
  else if in_cell w a then Some (byte_of (to_uint32 8) (a - w))
  else None.

(** ** Observations that ignore the handle *)

Definition erase_handle (e : log_event) : log_event :=
  match e with
  | LogInputs _ w h bpp ch imgdata => LogInputs NULL w h bpp ch imgdata
  | _ => e
  end.

(** Two machines that differ at most in the handles printed. *)
Definition same_but_handle (s1 s2 : machine) : Prop :=
  mem s1 = mem s2 /\ writes s1 = writes s2 /\
  map erase_handle (stderr s1) = map erase_handle (stderr s2).

Definition outcome_same_but_handle {A : Type} (o1 o2 : outcome A) : Prop :=
  match o1, o2 with
  | Done a1 s1, Done a2 s2 => a1 = a2 /\ same_but_handle s1 s2
  | Fault f1, Fault f2 => f1 = f2
  | _, _ => False
  end.

(** ** Where a call may store *)

(** Address [a] belongs to one of the destinations of the call. *)
Definition in_destination (w h bpp ch imgdata : ptr) (a : Z) : bool :=
  in_cell w a || in_cell h a || in_cell bpp a || in_cell ch a ||
  in_buffer imgdata a.

(** A store the call is entitled to: a 32-bit store through one of the
    non-null descriptor pointers, or a byte store through a non-null buffer
    pointer at an offset in [0, 32). *)
Definition store_in_bounds (w h bpp ch imgdata : ptr) (a : access) : bool :=
  match a with
  | Write32 p _ =>
      nonnull p && ((p =? w) || (p =? h) || (p =? bpp) || (p =? ch))
  | Write8 p _ =>
      nonnull imgdata && (0 <=? p - imgdata) && (p - imgdata <? 32)
  end.

(** A computation that never dereferences a null pointer. *)
Definition null_safe {A : Type} (c : M A) : Prop :=
  forall s, c s <> Fault NullDeref.

(** Two computations that, from machines differing at most in the handles
    printed, end in the same way. *)
Definition handle_blind {A : Type} (c1 c2 : M A) : Prop :=
  forall s1 s2, same_but_handle s1 s2 ->
    outcome_same_but_handle (c1 s1) (c2 s2).

(** ** Calls on any memory *)

(** A computation that performs the stores [ws] in order and stops with a
    fault at the first byte that is not allocated. *)
Definition runs_stores (c : M unit) (ws : list access) : Prop :=
  forall s,
    c s = match first_unallocated (bytes_of ws) (mem s) with
          | None => Done tt (after ws [] s)
          | Some a => Fault (BadAccess a)
          end.

Definition is_byte_store (a : access) : bool :=
  match a with
  | Write8 _ _ => true
  | Write32 _ _ => false
  end.

(** ** Proof automation *)

(** Turn the comparisons of the goal and hypotheses into propositions. *)
Ltac crush_cmp :=
  repeat match goal with
  | |- context [?x =? ?y] => destruct (Z.eqb_spec x y)
  | |- context [?x <=? ?y] => destruct (Z.leb_spec x y)
  | |- context [?x <? ?y] => destruct (Z.ltb_spec x y)
  | H : context [?x =? ?y] |- _ => destruct (Z.eqb_spec x y)
  | H : context [?x <=? ?y] |- _ => destruct (Z.leb_spec x y)
  | H : context [?x <? ?y] |- _ => destruct (Z.ltb_spec x y)
  end; simpl in *; try done; try lia.

(** ** Memory lemmas *)

Section Memory.

Implicit Types (m : gmap Z Z) (bs : list (Z * Z)) (a p v : Z).

Lemma put_bytes_app bs1 bs2 m :
  put_bytes (bs1 ++ bs2) m = put_bytes bs2 (put_bytes bs1 m).
Proof. unfold put_bytes. apply fold_left_app. Qed.

Lemma last_write_app a bs1 bs2 :
  last_write a (bs1 ++ bs2) =
  match last_write a bs2 with
  | Some v => Some v
  | None => last_write a bs1
  end.
Proof.
  induction bs1 as [|[a' v] bs1 IH]; simpl.
  - by destruct (last_write a bs2).
  - rewrite IH. by destruct (last_write a bs2).
Qed.

(** A memory after byte stores: the last store to an address wins, and the
    other addresses keep their contents. *)
Lemma lookup_put_bytes bs m a :
  put_bytes bs m !! a =
  match last_write a bs with
  | Some v => Some v
  | None => m !! a
  end.
Proof.
  revert m. induction bs as [|[a' v] bs IH]; intros m; simpl; [done|].
  fold (put_bytes bs (<[a':=v]> m)). rewrite IH.
  destruct (last_write a bs); [done|].
  destruct (Z.eqb_spec a' a) as [->|Hne].
  - by rewrite lookup_insert_eq.
  - by rewrite lookup_insert_ne.
Qed.

Lemma last_write_None a bs :
  last_write a bs = None <-> Forall (fun ab => fst ab <> a) bs.
Proof.
  induction bs as [|[a' v] bs IH]; simpl.
  - split; [constructor | done].
  - rewrite Forall_cons. simpl. destruct (last_write a bs) eqn:E.
    + split; [done|]. intros [_ H]. apply IH in H. done.
    + destruct (Z.eqb_spec a' a); split; try done.
      * intros [? _]. done.
      * intros _. split; [done|]. by apply IH.
Qed.

Lemma last_write_Some a bs v :
  last_write a bs = Some v -> In (a, v) bs.
Proof.
  induction bs as [|[a' v'] bs IH]; simpl; [done|].
  destruct (last_write a bs) eqn:E.
  - intros [= <-]. right. by apply IH.
  - destruct (Z.eqb_spec a' a) as [->|]; [|done]. intros [= <-]. by left.
Qed.

Lemma is_alloc_put_bytes bs m a :
  is_alloc m a = true -> is_alloc (put_bytes bs m) a = true.
Proof.
  unfold is_alloc. rewrite lookup_put_bytes.
  by destruct (last_write a bs).
Qed.

Lemma first_unallocated_None bs m :
  first_unallocated bs m = None <->
  Forall (fun ab => is_alloc m (fst ab) = true) bs.
Proof.
  unfold is_alloc. induction bs as [|[a v] bs IH]; simpl.
  - split; [constructor | done].
  - rewrite Forall_cons. simpl. destruct (m !! a).
    + rewrite IH. tauto.
    + split; [done|]. by intros [? _].
Qed.

(** Storing again what the last stores left changes nothing. *)
Lemma put_bytes_idemp bs m :
  put_bytes bs (put_bytes bs m) = put_bytes bs m.
Proof.
  apply map_eq. intros a. rewrite !lookup_put_bytes.
  by destruct (last_write a bs).
Qed.

(** The four bytes of a 32-bit value give the value back. *)
Lemma byte_of_eq v k : 0 <= k -> byte_of v k = (v / 2 ^ (8 * k)) mod 2 ^ 8.
Proof.
  intros Hk. unfold byte_of.
  change 255 with (Z.ones 8). rewrite Z.land_ones by lia.
  by rewrite Z.shiftr_div_pow2 by lia.
Qed.

Lemma bytes_roundtrip v :
  0 <= v < 2 ^ 32 ->
  byte_of v 0 + 2 ^ 8 * byte_of v 1 + 2 ^ 16 * byte_of v 2 +
  2 ^ 24 * byte_of v 3 = v.
Proof.
  intros Hv. rewrite !byte_of_eq by lia.
  change (2 ^ (8 * 0)) with 1. change (2 ^ (8 * 1)) with 256.
  change (2 ^ (8 * 2)) with 65536. change (2 ^ (8 * 3)) with 16777216.
  change (2 ^ 8) with 256. change (2 ^ 16) with 65536.
  change (2 ^ 24) with 16777216. change (2 ^ 32) with 4294967296 in Hv.
  Z.div_mod_to_equations. lia.
Qed.

End Memory.

(** ** Running the primitives *)

Section Execution.

Implicit Types (s : machine) (p i v : Z) (ws : list access).

Lemma nonnull_true p : nonnull p = true <-> p <> NULL.
Proof.
  unfold nonnull. destruct (Z.eqb_spec p NULL); simpl; split; congruence.
Qed.

Lemma nonnull_false p : nonnull p = false <-> p = NULL.
Proof.
  unfold nonnull. destruct (Z.eqb_spec p NULL); simpl; split; congruence.
Qed.

Lemma after_nil s : after [] [] s = s.
Proof. destruct s. unfold after. simpl. by rewrite !app_nil_r. Qed.

Lemma after_after ws1 ls1 ws2 ls2 s :
  after ws2 ls2 (after ws1 ls1 s) = after (ws1 ++ ws2) (ls1 ++ ls2) s.
Proof.
  unfold after, bytes_of. simpl.
  by rewrite flat_map_app, put_bytes_app, !app_assoc.
Qed.

Lemma mem_after ws ls s : mem (after ws ls s) = put_bytes (bytes_of ws) (mem s).
Proof. done. Qed.

Lemma is_alloc_after ws ls s a :
  is_alloc (mem s) a = true -> is_alloc (mem (after ws ls s)) a = true.
Proof. apply is_alloc_put_bytes. Qed.

Lemma valid_u32_after ws ls s p :
  valid_u32 (mem s) p = true -> valid_u32 (mem (after ws ls s)) p = true.
Proof.
  unfold valid_u32. rewrite !andb_true_iff.
  intros [[[? ?] ?] ?]. by rewrite !is_alloc_after.
Qed.

Lemma valid_buf_after ws ls s p :
  valid_buf (mem s) p = true -> valid_buf (mem (after ws ls s)) p = true.
Proof.
  unfold valid_buf. rewrite !forallb_forall.
  intros H i Hi. apply is_alloc_after. by apply H.
Qed.

Lemma valid_buf_alloc s p i :
  valid_buf (mem s) p = true -> 0 <= i < 32 -> is_alloc (mem s) (p + i) = true.
Proof.
  unfold valid_buf. rewrite forallb_forall. intros H Hi.
  apply H. apply list_elem_of_In, elem_of_seqZ. lia.
Qed.

Lemma fprintf_stderr_run e s : fprintf_stderr e s = Done tt (after [] [e] s).
Proof. unfold fprintf_stderr, after. simpl. by rewrite app_nil_r. Qed.

Lemma store_run base a s :
  base <> NULL ->
  Forall (fun ab => is_alloc (mem s) (fst ab) = true) (bytes_of_access a) ->
  store base a s = Done tt (after [a] [] s).
Proof.
  intros Hb Ha. unfold store.
  destruct (Z.eqb_spec base NULL); [done|].
  apply first_unallocated_None in Ha. rewrite Ha.
  unfold after, bytes_of. simpl. by rewrite !app_nil_r.
Qed.

(** A guarded descriptor store, [if (p) *p = v;]. *)
Lemma descriptor_run p v s :
  negb (nonnull p) || valid_u32 (mem s) p = true ->
  when (nonnull p) (store_u32 p v) s = Done tt (after (descriptor_write p v) [] s).
Proof.
  unfold when, descriptor_write. destruct (nonnull p) eqn:Hp; simpl.
  - intros Hv. apply store_run; [by apply nonnull_true|].
    unfold valid_u32 in Hv. rewrite !andb_true_iff in Hv.
    destruct Hv as [[[? ?] ?] ?]. simpl. by repeat constructor.
  - intros _. unfold ret. by rewrite after_nil.
Qed.

Lemma fill_pattern_step p i s :
  fill_pattern p i s =
  if Z_lt_dec i 32 then
    match store_u8 p i (Z.land i 255) s with
    | Done _ s' => fill_pattern p (i + 1) s'
    | Fault f => Fault f
    end
  else Done tt s.
Proof. simp fill_pattern. by destruct (Z_lt_dec i 32). Qed.

(** The loop, entered with [i] anywhere in [0 .. 32], performs the stores
    for [i .. 31] and terminates. *)
Lemma fill_pattern_run p (n : nat) : forall i s,
  p <> NULL ->
  i = 32 - Z.of_nat n -> 0 <= i ->
  valid_buf (mem s) p = true ->
  fill_pattern p i s = Done tt (after (pattern_writes p i) [] s).
Proof.
  induction n as [|n IH]; intros i s Hp Hi Hi0 Hv;
    rewrite fill_pattern_step; unfold pattern_writes.
  - destruct (Z_lt_dec i 32); [lia|].
    replace (32 - i) with 0 by lia. simpl. by rewrite after_nil.
  - destruct (Z_lt_dec i 32); [|lia].
    unfold store_u8. rewrite store_run; [|done|].
    + rewrite (IH (i + 1)); [|done|lia|lia|by apply valid_buf_after].
      rewrite after_after. simpl.
      rewrite (seqZ_cons i) by lia. unfold pattern_writes. simpl.
      replace (Z.succ i) with (i + 1) by lia.
      by replace (Z.pred (32 - i)) with (32 - (i + 1)) by lia.
    + simpl. repeat constructor. simpl. apply valid_buf_alloc; [done|lia].
Qed.

(** What a well-formed call does: the status, the stores in order, the
    lines printed. *)
Lemma capture_run handle w h bpp ch imgdata s :
  valid_call (mem s) w h bpp ch imgdata = true ->
  DummyGetQHYCCDSingleFrame handle w h bpp ch imgdata s =
  Done (capture_status imgdata)
       (after (capture_writes w h bpp ch imgdata)
              (capture_log handle w h bpp ch imgdata) s).
Proof.
  unfold valid_call. rewrite !andb_true_iff.
  intros [[[[Hw Hh] Hb] Hc] Hi].
  unfold DummyGetQHYCCDSingleFrame, bind.
  rewrite fprintf_stderr_run.
  rewrite descriptor_run by
    (rewrite orb_true_iff in *; intuition auto using valid_u32_after).
  rewrite after_after.
  rewrite descriptor_run by
    (rewrite orb_true_iff in *; intuition auto using valid_u32_after).
  rewrite after_after.
  rewrite descriptor_run by
    (rewrite orb_true_iff in *; intuition auto using valid_u32_after).
  rewrite after_after.
  rewrite descriptor_run by
    (rewrite orb_true_iff in *; intuition auto using valid_u32_after).
  rewrite after_after.
  unfold capture_status, capture_writes, capture_log, buffer_writes,
    descriptor_writes.
  destruct (nonnull imgdata) eqn:Hn; simpl in Hi.
  - rewrite (fill_pattern_run imgdata 32 0);
      [|by apply nonnull_true|done|done|by apply valid_buf_after].
    unfold ret. rewrite after_after. simpl.
    by rewrite <- !app_assoc.
  - rewrite fprintf_stderr_run. unfold ret. rewrite after_after. simpl.
    by rewrite ?app_nil_r, <- !app_assoc.
Qed.

End Execution.

(** ** The byte each address holds after a call *)

Section Footprint.

Implicit Types (s : machine) (p a i v : Z).

Lemma bytes_of_app ws1 ws2 : bytes_of (ws1 ++ ws2) = bytes_of ws1 ++ bytes_of ws2.
Proof. apply flat_map_app. Qed.

Lemma last_write_descriptor p v a :
  last_write a (bytes_of (descriptor_write p v)) =
  if in_cell p a then Some (byte_of (to_uint32 v) (a - p)) else None.
Proof.
  unfold descriptor_write, in_cell. destruct (nonnull p); simpl; [|done].
  crush_cmp; do 2 f_equal; lia.
Qed.

Lemma last_write_pattern_out p (l : list Z) a :
  ~ In (a - p) l -> last_write a (bytes_of (map (pattern_write p) l)) = None.
Proof.
  intros Hn. apply last_write_None. unfold bytes_of.
  apply Forall_forall. intros [a' v'] Hin. apply list_elem_of_In in Hin.
  apply in_flat_map in Hin as (x & Hx & Hin).
  apply in_map_iff in Hx as (k & <- & Hk). simpl in Hin.
  destruct Hin as [[= <- <-]|[]]. simpl. intros <-.
  apply Hn. by replace (p + k - p) with k by lia.
Qed.

Lemma last_write_pattern_in p (l : list Z) k :
  In k l ->
  last_write (p + k) (bytes_of (map (pattern_write p) l)) =
  Some (to_uint8 (Z.land k 255)).
Proof.
  induction l as [|j l IH]; simpl; [done|].
  destruct (in_dec Z.eq_dec k l) as [Hin|Hout].
  - intros _. fold (bytes_of (map (pattern_write p) l)). by rewrite IH.
  - intros [->|?]; [|done].
    fold (bytes_of (map (pattern_write p) l)).
    rewrite last_write_pattern_out by (by replace (p + k - p) with k by lia).
    by rewrite Z.eqb_refl.
Qed.

Lemma last_write_buffer q a :
  last_write a (bytes_of (buffer_writes q)) =
  if in_buffer q a then Some (to_uint8 (Z.land (a - q) 255)) else None.
Proof.
  unfold buffer_writes, in_buffer, pattern_writes.
  destruct (nonnull q); cbn [andb]; [|done].
  destruct (Z.leb_spec q a); cbn [andb];
    [destruct (Z.ltb_spec a (q + 32))|].
  - replace a with (q + (a - q)) at 1 by lia.
    apply last_write_pattern_in. apply list_elem_of_In, elem_of_seqZ. lia.
  - apply last_write_pattern_out.
    rewrite <- list_elem_of_In, elem_of_seqZ. lia.
  - apply last_write_pattern_out.
    rewrite <- list_elem_of_In, elem_of_seqZ. lia.
Qed.

Lemma last_write_capture w h bpp ch imgdata a :
  last_write a (bytes_of (capture_writes w h bpp ch imgdata)) =
  final_byte w h bpp ch imgdata a.
Proof.
  unfold capture_writes, descriptor_writes, final_byte.
  rewrite !bytes_of_app, !last_write_app, last_write_buffer,
    !last_write_descriptor.
  destruct (in_buffer imgdata a); [done|].
  destruct (in_cell ch a); [done|].
  destruct (in_cell bpp a); [done|].
  by destruct (in_cell h a).
Qed.

(** The memory after a call, address by address. *)
Lemma lookup_after_capture w h bpp ch imgdata ls s a :
  mem (after (capture_writes w h bpp ch imgdata) ls s) !! a =
  match final_byte w h bpp ch imgdata a with
  | Some v => Some v
  | None => mem s !! a
  end.
Proof. by rewrite mem_after, lookup_put_bytes, last_write_capture. Qed.

Lemma pattern_byte i : 0 <= i < 32 -> to_uint8 (Z.land i 255) = i mod 256.
Proof.
  intros Hi. unfold to_uint8. change 255 with (Z.ones 8).
  rewrite Z.land_ones by lia. change (2 ^ 8) with 256.
  by rewrite Z.mod_mod by lia.
Qed.

Lemma buffer_after_capture w h bpp ch imgdata ls s i :
  nonnull imgdata = true -> 0 <= i < 32 ->
  load_u8 (mem (after (capture_writes w h bpp ch imgdata) ls s)) (imgdata + i) =
  Some (i mod 256).
Proof.
  intros Hn Hi. unfold load_u8. rewrite lookup_after_capture.
  unfold final_byte, in_buffer. rewrite Hn.
  destruct (Z.leb_spec imgdata (imgdata + i)); [|lia].
  destruct (Z.ltb_spec (imgdata + i) (imgdata + 32)); [|lia]. simpl.
  replace (imgdata + i - imgdata) with i by lia. by rewrite pattern_byte.
Qed.

Lemma load_u32_bytes (m : gmap Z Z) p v :
  0 <= v < 2 ^ 32 ->
  (forall k, 0 <= k < 4 -> m !! (p + k) = Some (byte_of v k)) ->
  load_u32 m p = Some v.
Proof.
  intros Hv Hb. unfold load_u32.
  pose proof (Hb 0 ltac:(lia)) as H0. replace (p + 0) with p in H0 by lia.
  rewrite H0, (Hb 1), (Hb 2), (Hb 3) by lia.
  by rewrite bytes_roundtrip.
Qed.

Lemma in_cell_self p k : nonnull p = true -> 0 <= k < 4 -> in_cell p (p + k) = true.
Proof. intros Hp Hk. unfold in_cell. rewrite Hp. crush_cmp. Qed.

Lemma in_cell_apart p q k :
  overlaps_cell p q = false -> 0 <= k < 4 -> in_cell q (p + k) = false.
Proof.
  unfold overlaps_cell, in_cell. intros H Hk.
  destruct (nonnull q); [|done]. crush_cmp.
Qed.

Lemma in_buffer_apart p q k :
  overlaps_buffer p q = false -> 0 <= k < 4 -> in_buffer q (p + k) = false.
Proof.
  unfold overlaps_buffer, in_buffer. intros H Hk.
  destruct (nonnull q); [|done]. crush_cmp.
Qed.

(** A descriptor keeps the constant stored in it when none of the stores
    that follow touches its four bytes. *)
Lemma width_after_capture w h bpp ch imgdata ls s :
  nonnull w = true ->
  overlaps_cell w h = false -> overlaps_cell w bpp = false ->
  overlaps_cell w ch = false -> overlaps_buffer w imgdata = false ->
  load_u32 (mem (after (capture_writes w h bpp ch imgdata) ls s)) w = Some 8.
Proof.
  intros Hw H1 H2 H3 H4. apply load_u32_bytes; [done|]. intros k Hk.
  rewrite lookup_after_capture. unfold final_byte.
  rewrite in_buffer_apart, !in_cell_apart, in_cell_self by done.
  by replace (w + k - w) with k by lia.
Qed.

Lemma height_after_capture w h bpp ch imgdata ls s :
  nonnull h = true ->
  overlaps_cell h bpp = false ->
  overlaps_cell h ch = false -> overlaps_buffer h imgdata = false ->
  load_u32 (mem (after (capture_writes w h bpp ch imgdata) ls s)) h = Some 4.
Proof.
  intros Hh H2 H3 H4. apply load_u32_bytes; [done|]. intros k Hk.
  rewrite lookup_after_capture. unfold final_byte.
  rewrite in_buffer_apart, !in_cell_apart, in_cell_self by done.
  by replace (h + k - h) with k by lia.
Qed.

Lemma bpp_after_capture w h bpp ch imgdata ls s :
  nonnull bpp = true ->
  overlaps_cell bpp ch = false -> overlaps_buffer bpp imgdata = false ->
  load_u32 (mem (after (capture_writes w h bpp ch imgdata) ls s)) bpp = Some 8.
Proof.
  intros Hb H3 H4. apply load_u32_bytes; [done|]. intros k Hk.
  rewrite lookup_after_capture. unfold final_byte.
  rewrite in_buffer_apart, !in_cell_apart, in_cell_self by done.
  by replace (bpp + k - bpp) with k by lia.
Qed.

Lemma channels_after_capture w h bpp ch imgdata ls s :
  nonnull ch = true ->
  overlaps_buffer ch imgdata = false ->
  load_u32 (mem (after (capture_writes w h bpp ch imgdata) ls s)) ch = Some 1.
Proof.
  intros Hc H4. apply load_u32_bytes; [done|]. intros k Hk.
  rewrite lookup_after_capture. unfold final_byte.
  rewrite in_buffer_apart, in_cell_self by done.
  by replace (ch + k - ch) with k by lia.
Qed.

End Footprint.

(** ** Compositional reasoning on the monad *)

Section Composition.

Context {A B : Type}.

Lemma bind_Done (c : M A) (k : A -> M B) s b s' :
  bind c k s = Done b s' ->
  exists a s0, c s = Done a s0 /\ k a s0 = Done b s'.
Proof. unfold bind. destruct (c s) as [a s0|f]; [eauto | done]. Qed.

Lemma null_safe_bind (c : M A) (k : A -> M B) :
  null_safe c -> (forall a, null_safe (k a)) -> null_safe (bind c k).
Proof.
  intros Hc Hk s. unfold bind. specialize (Hc s).
  destruct (c s) as [a s0|f]; [apply Hk | congruence].
Qed.

Lemma handle_blind_bind (c1 c2 : M A) (k1 k2 : A -> M B) :
  handle_blind c1 c2 -> (forall a, handle_blind (k1 a) (k2 a)) ->
  handle_blind (bind c1 k1) (bind c2 k2).
Proof.
  intros Hc Hk s1 s2 Hs. unfold bind. specialize (Hc s1 s2 Hs).
  destruct (c1 s1) as [a1 t1|f1], (c2 s2) as [a2 t2|f2]; simpl in Hc; try done.
  destruct Hc as [<- Ht]. by apply Hk.
Qed.

End Composition.

Section Primitives.

Implicit Types (s : machine) (p i v : Z).

Lemma null_safe_ret {A : Type} (a : A) : null_safe (ret a).
Proof. intros s. done. Qed.

Lemma null_safe_fprintf e : null_safe (fprintf_stderr e).
Proof. intros s. done. Qed.

(** A store through a pointer that was tested first. *)
Lemma null_safe_store base a : base <> NULL -> null_safe (store base a).
Proof.
  intros Hb s. unfold store. destruct (Z.eqb_spec base NULL); [done|].
  by destruct (first_unallocated _ _).
Qed.

Lemma null_safe_descriptor p v : null_safe (when (nonnull p) (store_u32 p v)).
Proof.
  unfold when. destruct (nonnull p) eqn:Hp.
  - apply null_safe_store. by apply nonnull_true.
  - apply null_safe_ret.
Qed.

Lemma null_safe_fill p (n : nat) : forall i,
  p <> NULL -> (Z.to_nat (32 - i) <= n)%nat -> null_safe (fill_pattern p i).
Proof.
  induction n as [|n IH]; intros i Hp Hn s; rewrite fill_pattern_step.
  - destruct (Z_lt_dec i 32); [lia | done].
  - destruct (Z_lt_dec i 32); [|done].
    pose proof (null_safe_store p (Write8 (p + i) (to_uint8 (Z.land i 255))) Hp s)
      as Hs.
    unfold store_u8. destruct (store _ _ s) as [[] s'|f]; [|congruence].
    apply IH; [done | lia].
Qed.

Lemma same_but_handle_refl s : same_but_handle s s.
Proof. by repeat split. Qed.

Lemma handle_blind_ret {A : Type} (a : A) : handle_blind (ret a) (ret a).
Proof. intros s1 s2 Hs. by split. Qed.

Lemma handle_blind_fprintf e1 e2 :
  erase_handle e1 = erase_handle e2 ->
  handle_blind (fprintf_stderr e1) (fprintf_stderr e2).
Proof.
  intros He s1 s2 (Hm & Hw & Hl). simpl. repeat split; try done.
  simpl. rewrite !map_app, Hl. simpl. by rewrite He.
Qed.

Lemma handle_blind_store base a : handle_blind (store base a) (store base a).
Proof.
  intros s1 s2 (Hm & Hw & Hl). unfold store.
  destruct (base =? NULL); [done|]. rewrite Hm.
  destruct (first_unallocated _ _); [done|].
  simpl. repeat split; simpl; congruence.
Qed.

Lemma handle_blind_descriptor p v :
  handle_blind (when (nonnull p) (store_u32 p v))
               (when (nonnull p) (store_u32 p v)).
Proof.
  unfold when. destruct (nonnull p);
    [apply handle_blind_store | apply handle_blind_ret].
Qed.

Lemma handle_blind_fill p (n : nat) : forall i,
  (Z.to_nat (32 - i) <= n)%nat ->
  handle_blind (fill_pattern p i) (fill_pattern p i).
Proof.
  induction n as [|n IH]; intros i Hn s1 s2 Hs; rewrite !fill_pattern_step.
  - destruct (Z_lt_dec i 32); [lia|]. by split.
  - destruct (Z_lt_dec i 32); [|by split].
    pose proof (handle_blind_store p (Write8 (p + i) (to_uint8 (Z.land i 255)))
                  s1 s2 Hs) as Hst.
    unfold store_u8.
    destruct (store _ _ s1) as [[] t1|f1], (store _ _ s2) as [[] t2|f2];
      simpl in Hst; try done.
    destruct Hst as [_ Ht]. apply IH; [lia | done].
Qed.

End Primitives.

(** ** Facts about whole calls *)

Section Calls.

Implicit Types (s : machine) (p a i v : Z).

Lemma capture_null_safe handle w h bpp ch imgdata :
  null_safe (DummyGetQHYCCDSingleFrame handle w h bpp ch imgdata).
Proof.
  unfold DummyGetQHYCCDSingleFrame.
  apply null_safe_bind; [apply null_safe_fprintf | intros _].
  do 4 (apply null_safe_bind; [apply null_safe_descriptor | intros _]).
  destruct (nonnull imgdata) eqn:Hn.
  - apply null_safe_bind; [|intros _; apply null_safe_ret].
    apply (null_safe_fill imgdata 32); [by apply nonnull_true | lia].
  - apply null_safe_bind; [apply null_safe_fprintf | intros _; apply null_safe_ret].
Qed.

Lemma capture_handle_blind handle1 handle2 w h bpp ch imgdata :
  handle_blind (DummyGetQHYCCDSingleFrame handle1 w h bpp ch imgdata)
               (DummyGetQHYCCDSingleFrame handle2 w h bpp ch imgdata).
Proof.
  unfold DummyGetQHYCCDSingleFrame.
  apply handle_blind_bind; [by apply handle_blind_fprintf | intros _].
  do 4 (apply handle_blind_bind; [apply handle_blind_descriptor | intros _]).
  destruct (nonnull imgdata).
  - apply handle_blind_bind; [|intros _; apply handle_blind_ret].
    apply (handle_blind_fill imgdata 32). lia.
  - apply handle_blind_bind; [by apply handle_blind_fprintf|].
    intros _. apply handle_blind_ret.
Qed.

(** Whatever the memory, a call that returns returns the status decided by
    the test of [imgdata]. *)
Lemma capture_status_of_Done handle w h bpp ch imgdata s r s' :
  DummyGetQHYCCDSingleFrame handle w h bpp ch imgdata s = Done r s' ->
  r = capture_status imgdata.
Proof.
  unfold DummyGetQHYCCDSingleFrame, capture_status. intros H.
  do 5 (apply bind_Done in H as (_ & ? & _ & H)).
  destruct (nonnull imgdata);
    apply bind_Done in H as (_ & ? & _ & H); unfold ret in H; congruence.
Qed.

Lemma capture_status_cases imgdata r :
  r = capture_status imgdata ->
  (r = 1 <-> imgdata = NULL) /\ (r = 0 <-> imgdata <> NULL) /\ (r = 0 \/ r = 1).
Proof.
  unfold capture_status. intros ->.
  destruct (nonnull imgdata) eqn:Hn.
  - apply nonnull_true in Hn. repeat split; auto; done.
  - apply nonnull_false in Hn. repeat split; auto; done.
Qed.

Lemma final_byte_outside w h bpp ch imgdata a :
  in_destination w h bpp ch imgdata a = false ->
  final_byte w h bpp ch imgdata a = None.
Proof.
  unfold in_destination, final_byte. rewrite !orb_false_iff.
  intros [[[[-> ->] ->] ->] ->]. done.
Qed.

Lemma final_byte_inside w h bpp ch imgdata a :
  in_destination w h bpp ch imgdata a = true ->
  is_Some (final_byte w h bpp ch imgdata a).
Proof.
  unfold in_destination, final_byte.
  destruct (in_buffer imgdata a); [by eexists|].
  destruct (in_cell ch a); [by eexists|].
  destruct (in_cell bpp a); [by eexists|].
  destruct (in_cell h a); [by eexists|].
  destruct (in_cell w a); [by eexists|done].
Qed.

(** Bytes outside the destinations are left alone. *)
Lemma capture_frame w h bpp ch imgdata ls s a :
  in_destination w h bpp ch imgdata a = false ->
  mem (after (capture_writes w h bpp ch imgdata) ls s) !! a = mem s !! a.
Proof.
  intros Ha. by rewrite lookup_after_capture, final_byte_outside.
Qed.

(** Bytes inside the destinations do not depend on the memory before. *)
Lemma capture_overwrites w h bpp ch imgdata ls1 ls2 s1 s2 a :
  in_destination w h bpp ch imgdata a = true ->
  mem (after (capture_writes w h bpp ch imgdata) ls1 s1) !! a =
  mem (after (capture_writes w h bpp ch imgdata) ls2 s2) !! a.
Proof.
  intros Ha. rewrite !lookup_after_capture.
  by destruct (final_byte_inside _ _ _ _ _ _ Ha) as [v ->].
Qed.

Lemma descriptor_write_in_bounds w h bpp ch imgdata p v :
  p = w \/ p = h \/ p = bpp \/ p = ch ->
  forallb (store_in_bounds w h bpp ch imgdata) (descriptor_write p v) = true.
Proof.
  intros Hp. unfold descriptor_write. destruct (nonnull p) eqn:Hn; [|done].
  simpl. rewrite Hn. simpl. rewrite andb_true_r, !orb_true_iff, !Z.eqb_eq.
  tauto.
Qed.

Lemma buffer_writes_in_bounds w h bpp ch imgdata :
  forallb (store_in_bounds w h bpp ch imgdata) (buffer_writes imgdata) = true.
Proof.
  unfold buffer_writes. destruct (nonnull imgdata) eqn:Hn; [|done].
  apply forallb_forall. intros x Hx. unfold pattern_writes in Hx.
  apply in_map_iff in Hx as (k & <- & Hk).
  apply list_elem_of_In, elem_of_seqZ in Hk. simpl. rewrite Hn.
  replace (imgdata + k - imgdata) with k by lia. crush_cmp.
Qed.

Lemma capture_writes_in_bounds w h bpp ch imgdata :
  forallb (store_in_bounds w h bpp ch imgdata)
          (capture_writes w h bpp ch imgdata) = true.
Proof.
  unfold capture_writes, descriptor_writes.
  rewrite !forallb_app, buffer_writes_in_bounds,
    !descriptor_write_in_bounds by tauto.
  done.
Qed.

Lemma valid_call_after w h bpp ch imgdata ws ls s :
  valid_call (mem s) w h bpp ch imgdata = true ->
  valid_call (mem (after ws ls s)) w h bpp ch imgdata = true.
Proof.
  unfold valid_call. rewrite !andb_true_iff, !orb_true_iff.
  intros [[[[Hw Hh] Hb] Hc] Hi].
  repeat split;
    intuition auto using valid_u32_after, valid_buf_after.
Qed.

Lemma load_u32_ext (m1 m2 : gmap Z Z) p :
  (forall k, 0 <= k < 4 -> m1 !! (p + k) = m2 !! (p + k)) ->
  load_u32 m1 p = load_u32 m2 p.
Proof.
  intros H. unfold load_u32.
  pose proof (H 0 ltac:(lia)) as H0. replace (p + 0) with p in H0 by lia.
  by rewrite H0, (H 1), (H 2), (H 3) by lia.
Qed.

Lemma in_destination_cell w h bpp ch imgdata p k :
  In p [w; h; bpp; ch] -> nonnull p = true -> 0 <= k < 4 ->
  in_destination w h bpp ch imgdata (p + k) = true.
Proof.
  intros Hp Hn Hk. unfold in_destination. rewrite !orb_true_iff.
  pose proof (in_cell_self p k Hn Hk) as Hc. simpl in Hp.
  destruct Hp as [<-|[<-|[<-|[<-|[]]]]]; tauto.
Qed.

Lemma in_destination_buffer w h bpp ch imgdata i :
  nonnull imgdata = true -> 0 <= i < 32 ->
  in_destination w h bpp ch imgdata (imgdata + i) = true.
Proof.
  intros Hn Hi. unfold in_destination, in_buffer. rewrite Hn, !orb_true_iff.
  right. crush_cmp.
Qed.

End Calls.

(** ** The functions on the test memory *)

Example capture_null_buffer :
  observe (DummyGetQHYCCDSingleFrame 7 256 260 264 268 NULL demo) =
  Some (1, [Write32 256 8; Write32 260 4; Write32 264 8; Write32 268 1],
        [LogInputs 7 256 260 264 268 NULL; LogImgdataNull]).
Proof. by vm_compute. Qed.

Example capture_only_buffer :
  observe (DummyGetQHYCCDSingleFrame 7 NULL NULL NULL NULL 512 demo) =
  Some (0, map (fun i => Write8 (512 + i) i) (seqZ 0 32),
        [LogInputs 7 NULL NULL NULL NULL 512]).
Proof. by vm_compute. Qed.

Example capture_buffer_over_width :
  match DummyGetQHYCCDSingleFrame 7 256 NULL NULL NULL 256 (boot (alloc 256 32 0 ∅)) with
  | Done r s' => r = 0 /\ load_u32 (mem s') 256 = Some 50462976
  | Fault _ => False
  end.
Proof. by vm_compute. Qed.

Example capture_short_buffer :
  DummyGetQHYCCDSingleFrame 7 NULL NULL NULL NULL 512 (boot (alloc 512 31 0 ∅)) =
  Fault (BadAccess 543).
Proof. by vm_compute. Qed.

Example buffer_address_demo :
  observe (DummyBufferAddress 512 demo) = Some (512, [], [LogBufferAddress 512]).
Proof. by vm_compute. Qed.

(** ** The claims about SingleFrameCapture and BufferAddressProbe *)

(** C1, as stated, fails: with a null buffer and a non-null width
    destination the call returns 1 but has stored 8 in the width, so memory
    is written.  The 32-bit object at 0x100 holds 0xAAAAAAAA before the call
    and 8 after it. *)
Lemma missing_buffer_still_writes_width :
  valid_call (mem demo) 256 NULL NULL NULL NULL = true /\
  load_u32 (mem demo) 256 = Some 2863311530 /\
  exists s',
    DummyGetQHYCCDSingleFrame 7 256 NULL NULL NULL NULL demo = Done 1 s' /\
    writes s' = writes demo ++ [Write32 256 8] /\
    load_u32 (mem s') 256 = Some 8 /\
    mem s' <> mem demo.
Proof.
  split; [by vm_compute|]. split; [by vm_compute|].
  eexists. split; [by vm_compute|]. split; [by vm_compute|].
  split; [by vm_compute|].
  intros Heq. apply (f_equal (fun m => m !! 256)) in Heq.
  vm_compute in Heq. discriminate.
Qed.

(** C1 (amended): a well-formed call with a null buffer returns 1 without
    faulting, prints the error line, performs no byte store, and its only
    stores are 32-bit stores through the non-null descriptor pointers: every
    byte outside the non-null descriptor destinations is unchanged, and with
    all four descriptors null nothing at all is written. *)
Theorem missing_buffer_fails handle w h bpp ch s :
  valid_call (mem s) w h bpp ch NULL = true ->
  exists s' ws,
    DummyGetQHYCCDSingleFrame handle w h bpp ch NULL s = Done 1 s' /\
    stderr s' = stderr s ++ [LogInputs handle w h bpp ch NULL; LogImgdataNull] /\
    writes s' = writes s ++ ws /\
    ws = (if nonnull w then [Write32 w 8] else []) ++
         (if nonnull h then [Write32 h 4] else []) ++
         (if nonnull bpp then [Write32 bpp 8] else []) ++
         (if nonnull ch then [Write32 ch 1] else []) /\
    forallb (store_in_bounds w h bpp ch NULL) ws = true /\
    (forall a, in_cell w a = false -> in_cell h a = false ->
               in_cell bpp a = false -> in_cell ch a = false ->
               mem s' !! a = mem s !! a) /\
    (w = NULL -> h = NULL -> bpp = NULL -> ch = NULL ->
     ws = [] /\ mem s' = mem s).
Proof.
  intros Hv. rewrite (capture_run _ _ _ _ _ _ _ Hv).
  eexists _, _. split; [done|]. split; [done|]. split; [done|].
  split; [|split; [apply capture_writes_in_bounds|split]].
  - unfold capture_writes, buffer_writes. simpl. by rewrite app_nil_r.
  - intros a Hw Hh Hb Hc. apply capture_frame.
    unfold in_destination. by rewrite Hw, Hh, Hb, Hc.
  - intros -> -> -> ->. done.
Qed.

Lemma missing_buffer_fails_witness :
  exists s' ws,
    DummyGetQHYCCDSingleFrame 7 256 260 NULL NULL NULL demo = Done 1 s' /\
    stderr s' = stderr demo ++ [LogInputs 7 256 260 NULL NULL NULL; LogImgdataNull] /\
    writes s' = writes demo ++ ws /\
    ws = [Write32 256 8; Write32 260 4] /\
    forall a, in_cell 256 a = false -> in_cell 260 a = false ->
              mem s' !! a = mem demo !! a.
Proof.
  destruct (missing_buffer_fails 7 256 260 NULL NULL demo)
    as (s' & ws & Hrun & Herr & Hws & Hlist & _ & Hframe & _);
    [vm_compute; reflexivity|].
  exists s', ws. split; [exact Hrun|]. split; [exact Herr|].
  split; [exact Hws|]. split; [exact Hlist|].
  intros a Hw Hh. apply Hframe; [exact Hw | exact Hh | reflexivity | reflexivity].
Defined.

(** C2: a well-formed call with a non-null buffer (32 bytes allocated at
    [imgdata]) returns 0, and afterwards the byte at offset [i] of the buffer
    is [i mod 256], for every [i] in [0, 32). *)
Theorem pattern_correct handle w h bpp ch imgdata s :
  nonnull imgdata = true ->
  valid_call (mem s) w h bpp ch imgdata = true ->
  exists s',
    DummyGetQHYCCDSingleFrame handle w h bpp ch imgdata s = Done 0 s' /\
    forall i, 0 <= i < 32 -> load_u8 (mem s') (imgdata + i) = Some (i mod 256).
Proof.
  intros Hn Hv. rewrite (capture_run _ _ _ _ _ _ _ Hv).
  unfold capture_status. rewrite Hn. eexists. split; [done|].
  intros i Hi. by apply buffer_after_capture.
Qed.

Lemma pattern_correct_witness :
  exists s',
    DummyGetQHYCCDSingleFrame 7 256 260 264 268 512 demo = Done 0 s' /\
    forall i, 0 <= i < 32 -> load_u8 (mem s') (512 + i) = Some (i mod 256).
Proof.
  apply (pattern_correct 7 256 260 264 268 512 demo); vm_compute; reflexivity.
Defined.

(** C3: the status is 1 exactly when the buffer pointer is null and 0
    exactly when it is not, no other status is returned, a null pointer is
    never dereferenced, and a well-formed call does return, without a
    fault. *)
Theorem status_iff_buffer_null handle w h bpp ch imgdata s :
  (forall r s',
     DummyGetQHYCCDSingleFrame handle w h bpp ch imgdata s = Done r s' ->
     (r = 1 <-> imgdata = NULL) /\ (r = 0 <-> imgdata <> NULL) /\
     (r = 0 \/ r = 1)) /\
  DummyGetQHYCCDSingleFrame handle w h bpp ch imgdata s <> Fault NullDeref /\
  (valid_call (mem s) w h bpp ch imgdata = true ->
   exists r s',
     DummyGetQHYCCDSingleFrame handle w h bpp ch imgdata s = Done r s').
Proof.
  split; [|split].
  - intros r s' H. apply capture_status_cases.
    by apply capture_status_of_Done in H.
  - apply capture_null_safe.
  - intros Hv. rewrite (capture_run _ _ _ _ _ _ _ Hv). by eexists _, _.
Qed.

Lemma status_iff_buffer_null_witness :
  (exists r s', DummyGetQHYCCDSingleFrame 7 256 260 264 268 512 demo = Done r s') /\
  (exists r s', DummyGetQHYCCDSingleFrame 7 256 260 264 268 NULL demo = Done r s').
Proof.
  split.
  - apply (status_iff_buffer_null 7 256 260 264 268 512 demo).
    vm_compute. reflexivity.
  - apply (status_iff_buffer_null 7 256 260 264 268 NULL demo).
    vm_compute. reflexivity.
Defined.

(** C4, as stated, fails when a destination written later in the call
    overlaps an earlier one: with the width and the height pointing to the
    same object, the object holds 4 after the call, not the width 8. *)
Lemma aliased_width_holds_height :
  valid_call (mem demo) 256 256 NULL NULL 512 = true /\
  nonnull 256 = true /\
  exists s',
    DummyGetQHYCCDSingleFrame 7 256 256 NULL NULL 512 demo = Done 0 s' /\
    load_u32 (mem s') 256 = Some 4.
Proof.
  split; [by vm_compute|]. split; [by vm_compute|].
  eexists. split; by vm_compute.
Qed.

(** C4 (amended): after a well-formed call, a non-null descriptor
    destination holds its constant (width 8, height 4, bits per pixel 8,
    channels 1), whether the other destinations are null or not, provided
    no destination written later in the call (the order is width, height,
    bits per pixel, channels, then the 32 buffer bytes) shares a byte with
    it. *)
Theorem descriptor_correct_unless_overwritten handle w h bpp ch imgdata s :
  valid_call (mem s) w h bpp ch imgdata = true ->
  exists r s',
    DummyGetQHYCCDSingleFrame handle w h bpp ch imgdata s = Done r s' /\
    (nonnull w = true ->
     overlaps_cell w h = false -> overlaps_cell w bpp = false ->
     overlaps_cell w ch = false -> overlaps_buffer w imgdata = false ->
     load_u32 (mem s') w = Some 8) /\
    (nonnull h = true ->
     overlaps_cell h bpp = false -> overlaps_cell h ch = false ->
     overlaps_buffer h imgdata = false ->
     load_u32 (mem s') h = Some 4) /\
    (nonnull bpp = true ->
     overlaps_cell bpp ch = false -> overlaps_buffer bpp imgdata = false ->
     load_u32 (mem s') bpp = Some 8) /\
    (nonnull ch = true ->
     overlaps_buffer ch imgdata = false ->
     load_u32 (mem s') ch = Some 1).
Proof.
  intros Hv. rewrite (capture_run _ _ _ _ _ _ _ Hv).
  eexists _, _. split; [done|].
  split; [apply width_after_capture|].
  split; [apply height_after_capture|].
  split; [apply bpp_after_capture | apply channels_after_capture].
Qed.

Lemma descriptor_correct_unless_overwritten_witness :
  exists r s',
    DummyGetQHYCCDSingleFrame 7 256 260 264 268 512 demo = Done r s' /\
    load_u32 (mem s') 256 = Some 8 /\ load_u32 (mem s') 260 = Some 4 /\
    load_u32 (mem s') 264 = Some 8 /\ load_u32 (mem s') 268 = Some 1.
Proof.
  destruct (descriptor_correct_unless_overwritten 7 256 260 264 268 512 demo)
    as (r & s' & Hrun & Hw & Hh & Hb & Hc); [vm_compute; reflexivity|].
  exists r, s'. split; [exact Hrun|].
  split; [apply Hw; vm_compute; reflexivity|].
  split; [apply Hh; vm_compute; reflexivity|].
  split; [apply Hb; vm_compute; reflexivity|].
  apply Hc; vm_compute; reflexivity.
Defined.

(** C5: with the four descriptor pointers null and a non-null buffer of 32
    bytes, the call returns 0 and fills the buffer with the pattern; the
    null descriptors cost no store and no error line, the only stores are
    the 32 byte stores, in order. *)
Theorem null_descriptors_skipped handle imgdata s :
  nonnull imgdata = true ->
  valid_buf (mem s) imgdata = true ->
  exists s',
    DummyGetQHYCCDSingleFrame handle NULL NULL NULL NULL imgdata s = Done 0 s' /\
    (forall i, 0 <= i < 32 -> load_u8 (mem s') (imgdata + i) = Some (i mod 256)) /\
    writes s' = writes s ++ map (pattern_write imgdata) (seqZ 0 32) /\
    stderr s' = stderr s ++ [LogInputs handle NULL NULL NULL NULL imgdata].
Proof.
  intros Hn Hb.
  assert (valid_call (mem s) NULL NULL NULL NULL imgdata = true) as Hv.
  { unfold valid_call. rewrite Hb, orb_true_r. done. }
  rewrite (capture_run _ _ _ _ _ _ _ Hv).
  unfold capture_status, capture_log. rewrite Hn.
  eexists. split; [done|]. split; [|split].
  - intros i Hi. by apply buffer_after_capture.
  - simpl. unfold capture_writes, buffer_writes. by rewrite Hn.
  - done.
Qed.

Lemma null_descriptors_skipped_witness :
  exists s',
    DummyGetQHYCCDSingleFrame 7 NULL NULL NULL NULL 512 demo = Done 0 s' /\
    (forall i, 0 <= i < 32 -> load_u8 (mem s') (512 + i) = Some (i mod 256)) /\
    writes s' = writes demo ++ map (pattern_write 512) (seqZ 0 32) /\
    stderr s' = stderr demo ++ [LogInputs 7 NULL NULL NULL NULL 512].
Proof.
  apply (null_descriptors_skipped 7 512 demo); vm_compute; reflexivity.
Defined.

(** C6: no call dereferences a null pointer, whatever its arguments and the
    memory; and every store of a well-formed call is a 32-bit store through
    a non-null descriptor pointer or a byte store through a non-null buffer
    pointer at an offset in [0, 32), so that every byte outside the
    destinations is unchanged. *)
Theorem capture_memory_safe handle w h bpp ch imgdata s :
  DummyGetQHYCCDSingleFrame handle w h bpp ch imgdata s <> Fault NullDeref /\
  (valid_call (mem s) w h bpp ch imgdata = true ->
   exists r s' ws,
     DummyGetQHYCCDSingleFrame handle w h bpp ch imgdata s = Done r s' /\
     writes s' = writes s ++ ws /\
     forallb (store_in_bounds w h bpp ch imgdata) ws = true /\
     forall a, in_destination w h bpp ch imgdata a = false ->
               mem s' !! a = mem s !! a).
Proof.
  split; [apply capture_null_safe|].
  intros Hv. rewrite (capture_run _ _ _ _ _ _ _ Hv).
  eexists _, _, _. split; [done|]. split; [done|].
  split; [apply capture_writes_in_bounds|].
  intros a Ha. by apply capture_frame.
Qed.

Lemma capture_memory_safe_witness :
  exists r s' ws,
    DummyGetQHYCCDSingleFrame 7 256 NULL 264 NULL 512 demo = Done r s' /\
    writes s' = writes demo ++ ws /\
    forallb (store_in_bounds 256 NULL 264 NULL 512) ws = true /\
    forall a, in_destination 256 NULL 264 NULL 512 a = false ->
              mem s' !! a = mem demo !! a.
Proof.
  apply (capture_memory_safe 7 256 NULL 264 NULL 512 demo).
  vm_compute. reflexivity.
Defined.

(** C7: for every pointer value, the probe returns that address as an
    integer, and 0 for the null pointer; it cannot fault, stores nothing and
    leaves memory as it was (it only prints its line). *)
Theorem buffer_address_identity imgdata s :
  (ptr_wf imgdata ->
   exists s',
     DummyBufferAddress imgdata s = Done imgdata s' /\
     mem s' = mem s /\ writes s' = writes s /\
     stderr s' = stderr s ++ [LogBufferAddress imgdata]) /\
  (exists s',
     DummyBufferAddress NULL s = Done 0 s' /\
     mem s' = mem s /\ writes s' = writes s) /\
  (forall f, DummyBufferAddress imgdata s <> Fault f).
Proof.
  split; [|split].
  - intros [Hlo Hhi]. unfold DummyBufferAddress, bind, ret, fprintf_stderr.
    unfold to_uintptr. rewrite Z.mod_small by done. by eexists.
  - by eexists.
  - done.
Qed.

Lemma buffer_address_identity_witness :
  exists s',
    DummyBufferAddress 512 demo = Done 512 s' /\
    mem s' = mem demo /\ writes s' = writes demo /\
    stderr s' = stderr demo ++ [LogBufferAddress 512].
Proof.
  apply (buffer_address_identity 512 demo).
  unfold ptr_wf, ptr_bits. lia.
Defined.

(** C8: the effect of a well-formed call is a function of its arguments
    alone.  From any two memories the call returns the same status, performs
    the same stores, prints the same lines and leaves the same bytes in every
    destination (hence the same descriptor values and the same pattern); and
    calling again with the same arguments returns the same status and leaves
    memory exactly as the first call left it. *)
Theorem capture_deterministic_idempotent handle w h bpp ch imgdata s1 s2 :
  valid_call (mem s1) w h bpp ch imgdata = true ->
  valid_call (mem s2) w h bpp ch imgdata = true ->
  exists r ws ls t1 t2 t1',
    DummyGetQHYCCDSingleFrame handle w h bpp ch imgdata s1 = Done r t1 /\
    DummyGetQHYCCDSingleFrame handle w h bpp ch imgdata s2 = Done r t2 /\
    writes t1 = writes s1 ++ ws /\ writes t2 = writes s2 ++ ws /\
    stderr t1 = stderr s1 ++ ls /\ stderr t2 = stderr s2 ++ ls /\
    (forall a, in_destination w h bpp ch imgdata a = true ->
               mem t1 !! a = mem t2 !! a) /\
    (forall p, In p [w; h; bpp; ch] -> nonnull p = true ->
               load_u32 (mem t1) p = load_u32 (mem t2) p) /\
    (nonnull imgdata = true -> forall i, 0 <= i < 32 ->
       load_u8 (mem t1) (imgdata + i) = load_u8 (mem t2) (imgdata + i)) /\
    DummyGetQHYCCDSingleFrame handle w h bpp ch imgdata t1 = Done r t1' /\
    mem t1' = mem t1 /\
    writes t1' = writes t1 ++ ws /\ stderr t1' = stderr t1 ++ ls.
Proof.
  intros Hv1 Hv2.
  rewrite (capture_run _ _ _ _ _ _ _ Hv1), (capture_run _ _ _ _ _ _ _ Hv2).
  eexists _, _, _, _, _, _.
  split; [done|]. split; [done|]. split; [done|]. split; [done|].
  split; [done|]. split; [done|].
  split; [|split; [|split; [|split; [|split]]]].
  - intros a Ha. by apply capture_overwrites.
  - intros p Hp Hn. apply load_u32_ext. intros k Hk.
    apply capture_overwrites. by apply in_destination_cell.
  - intros Hn i Hi. unfold load_u8.
    apply capture_overwrites. by apply in_destination_buffer.
  - by rewrite capture_run by (by apply valid_call_after).
  - rewrite !mem_after. apply put_bytes_idemp.
  - done.
Qed.

Lemma capture_deterministic_idempotent_witness :
  exists r ws ls t1 t2 t1',
    DummyGetQHYCCDSingleFrame 7 256 260 264 268 512 demo = Done r t1 /\
    DummyGetQHYCCDSingleFrame 7 256 260 264 268 512
      (boot (alloc 256 16 0 (alloc 512 32 255 ∅))) = Done r t2 /\
    writes t1 = writes demo ++ ws /\
    writes t2 = writes (boot (alloc 256 16 0 (alloc 512 32 255 ∅))) ++ ws /\
    stderr t1 = stderr demo ++ ls /\
    stderr t2 = stderr (boot (alloc 256 16 0 (alloc 512 32 255 ∅))) ++ ls /\
    (forall a, in_destination 256 260 264 268 512 a = true ->
               mem t1 !! a = mem t2 !! a) /\
    (forall p, In p [256; 260; 264; 268] -> nonnull p = true ->
               load_u32 (mem t1) p = load_u32 (mem t2) p) /\
    (nonnull 512 = true -> forall i, 0 <= i < 32 ->
       load_u8 (mem t1) (512 + i) = load_u8 (mem t2) (512 + i)) /\
    DummyGetQHYCCDSingleFrame 7 256 260 264 268 512 t1 = Done r t1' /\
    mem t1' = mem t1 /\
    writes t1' = writes t1 ++ ws /\ stderr t1' = stderr t1 ++ ls.
Proof.
  apply (capture_deterministic_idempotent 7 256 260 264 268 512 demo
           (boot (alloc 256 16 0 (alloc 512 32 255 ∅))));
    vm_compute; reflexivity.
Defined.

(** C9: the handle does not influence the call.  With two handles and
    otherwise the same arguments, from the same machine, the two calls end
    the same way: the same fault, or the same status, the same memory and
    the same stores; the lines printed differ at most in the handle. *)
Theorem handle_irrelevant handle1 handle2 w h bpp ch imgdata s :
  outcome_same_but_handle
    (DummyGetQHYCCDSingleFrame handle1 w h bpp ch imgdata s)
    (DummyGetQHYCCDSingleFrame handle2 w h bpp ch imgdata s).
Proof. apply capture_handle_blind, same_but_handle_refl. Qed.

(** C10: the descriptor stores do not depend on the buffer.  In every
    well-formed call the stores begin with the store of the constant into
    each non-null descriptor destination (width 8, height 4, bits per pixel
    8, channels 1, in this order); when the buffer pointer is null these are
    all the stores, and the call then returns 1. *)
Theorem descriptors_written_despite_null_buffer handle w h bpp ch imgdata s :
  valid_call (mem s) w h bpp ch imgdata = true ->
  exists r s' ds rest,
    DummyGetQHYCCDSingleFrame handle w h bpp ch imgdata s = Done r s' /\
    writes s' = writes s ++ ds ++ rest /\
    ds = (if nonnull w then [Write32 w 8] else []) ++
         (if nonnull h then [Write32 h 4] else []) ++
         (if nonnull bpp then [Write32 bpp 8] else []) ++
         (if nonnull ch then [Write32 ch 1] else []) /\
    (nonnull w = true -> In (Write32 w 8) ds) /\
    (nonnull h = true -> In (Write32 h 4) ds) /\
    (nonnull bpp = true -> In (Write32 bpp 8) ds) /\
    (nonnull ch = true -> In (Write32 ch 1) ds) /\
    (imgdata = NULL ->
     r = 1 /\ rest = [] /\
     (nonnull ch = true -> load_u32 (mem s') ch = Some 1)).
Proof.
  intros Hv. rewrite (capture_run _ _ _ _ _ _ _ Hv).
  eexists _, _, _, _. split; [done|].
  split; [simpl; unfold capture_writes; reflexivity|].
  split; [reflexivity|].
  split; [|split; [|split; [|split]]].
  - intros Hn. unfold descriptor_writes, descriptor_write. rewrite Hn.
    apply in_app_iff. left. by left.
  - intros Hn. unfold descriptor_writes, descriptor_write. rewrite Hn.
    apply in_app_iff. right. apply in_app_iff. left. by left.
  - intros Hn. unfold descriptor_writes, descriptor_write. rewrite Hn.
    do 2 (apply in_app_iff; right). apply in_app_iff. left. by left.
  - intros Hn. unfold descriptor_writes, descriptor_write. rewrite Hn.
    do 3 (apply in_app_iff; right). by left.
  - intros ->. split; [done|]. split; [done|].
    intros Hc. by apply channels_after_capture.
Qed.

Lemma descriptors_written_despite_null_buffer_witness :
  exists r s' ds rest,
    DummyGetQHYCCDSingleFrame 7 256 260 264 268 NULL demo = Done r s' /\
    writes s' = writes demo ++ ds ++ rest /\
    ds = [Write32 256 8; Write32 260 4; Write32 264 8; Write32 268 1] /\
    r = 1 /\ rest = [] /\ load_u32 (mem s') 268 = Some 1.
Proof.
  destruct (descriptors_written_despite_null_buffer 7 256 260 264 268 NULL demo)
    as (r & s' & ds & rest & Hrun & Hws & Hds & _ & _ & _ & _ & Hnull);
    [vm_compute; reflexivity|].
  destruct (Hnull eq_refl) as (Hr & Hrest & Hch).
  exists r, s', ds, rest.
  split; [exact Hrun|]. split; [exact Hws|]. split; [exact Hds|].
  split; [exact Hr|]. split; [exact Hrest|].
  apply Hch. vm_compute. reflexivity.
Defined.

(** ** Calls on any memory: where a call stops *)

Section Totality.

Implicit Types (s : machine) (m : gmap Z Z) (bs : list (Z * Z)) (p a i v : Z).

Lemma first_unallocated_app bs1 bs2 m :
  first_unallocated (bs1 ++ bs2) m =
  match first_unallocated bs1 m with
  | Some a => Some a
  | None => first_unallocated bs2 m
  end.
Proof.
  induction bs1 as [|[a v] bs1 IH]; simpl; [done|].
  by destruct (m !! a).
Qed.

Lemma first_unallocated_Some bs m a :
  first_unallocated bs m = Some a ->
  In a (map fst bs) /\ m !! a = None.
Proof.
  induction bs as [|[a' v] bs IH]; simpl; [done|].
  destruct (m !! a') eqn:E.
  - intros H. destruct (IH H). auto.
  - intros [= <-]. auto.
Qed.

(** Stores to allocated bytes do not change what is allocated. *)
Lemma lookup_put_bytes_None bs m a :
  first_unallocated bs m = None ->
  put_bytes bs m !! a = None <-> m !! a = None.
Proof.
  intros Hbs. apply first_unallocated_None in Hbs.
  rewrite lookup_put_bytes. destruct (last_write a bs) as [v|] eqn:E; [|done].
  apply last_write_Some in E. rewrite Forall_forall in Hbs.
  apply list_elem_of_In, Hbs in E. simpl in E. unfold is_alloc in E.
  destruct (m !! a); done.
Qed.

Lemma first_unallocated_put_bytes bs bs' m :
  first_unallocated bs' m = None ->
  first_unallocated bs (put_bytes bs' m) = first_unallocated bs m.
Proof.
  intros Hbs'. induction bs as [|[a v] bs IH]; simpl; [done|].
  pose proof (lookup_put_bytes_None bs' m a Hbs') as Hiff.
  destruct (put_bytes bs' m !! a) eqn:E1, (m !! a) eqn:E2; try done.
  - discriminate (proj2 Hiff eq_refl).
  - discriminate (proj1 Hiff eq_refl).
Qed.

Lemma runs_stores_bind (c1 c2 : M unit) ws1 ws2 :
  runs_stores c1 ws1 -> runs_stores c2 ws2 ->
  runs_stores (bind c1 (fun _ => c2)) (ws1 ++ ws2).
Proof.
  intros H1 H2 s. unfold bind. rewrite H1, bytes_of_app, first_unallocated_app.
  destruct (first_unallocated (bytes_of ws1) (mem s)) eqn:E1; [done|].
  rewrite H2, mem_after, first_unallocated_put_bytes by done.
  destruct (first_unallocated (bytes_of ws2) (mem s)); [done|].
  by rewrite after_after.
Qed.

Lemma runs_stores_store base acc :
  base <> NULL -> runs_stores (store base acc) [acc].
Proof.
  intros Hb s. unfold store. destruct (Z.eqb_spec base NULL); [done|].
  unfold bytes_of. simpl. rewrite app_nil_r.
  destruct (first_unallocated _ _); [done|].
  unfold after, bytes_of. simpl. by rewrite !app_nil_r.
Qed.

Lemma runs_stores_descriptor p v :
  runs_stores (when (nonnull p) (store_u32 p v)) (descriptor_write p v).
Proof.
  unfold when, descriptor_write. destruct (nonnull p) eqn:Hp.
  - apply runs_stores_store. by apply nonnull_true.
  - intros s. simpl. unfold ret. by rewrite after_nil.
Qed.

Lemma runs_stores_fill p (n : nat) : forall i,
  p <> NULL -> i = 32 - Z.of_nat n -> 0 <= i ->
  runs_stores (fill_pattern p i) (pattern_writes p i).
Proof.
  induction n as [|n IH]; intros i Hp Hi Hi0 s;
    rewrite fill_pattern_step; unfold pattern_writes.
  - destruct (Z_lt_dec i 32); [lia|].
    replace (32 - i) with 0 by lia. simpl. by rewrite after_nil.
  - destruct (Z_lt_dec i 32); [|lia].
    rewrite (seqZ_cons i) by lia. simpl.
    replace (Z.succ i) with (i + 1) by lia.
    replace (Z.pred (32 - i)) with (32 - (i + 1)) by lia.
    fold (pattern_writes p (i + 1)). fold (bytes_of (pattern_writes p (i + 1))).
    unfold store_u8.
    rewrite (runs_stores_store p (Write8 (p + i) (to_uint8 (Z.land i 255))) Hp s).
    unfold bytes_of at 1. simpl.
    destruct (mem s !! (p + i)) eqn:E; [|done].
    rewrite (IH (i + 1)) by (done || lia).
    rewrite mem_after, first_unallocated_put_bytes
      by (unfold bytes_of; simpl; by rewrite E).
    destruct (first_unallocated _ _); [done|].
    by rewrite after_after.
Qed.

Lemma bind_runs_stores {B : Type} (c : M unit) ws (k : unit -> M B) s :
  runs_stores c ws ->
  bind c k s =
  match first_unallocated (bytes_of ws) (mem s) with
  | None => k tt (after ws [] s)
  | Some a => Fault (BadAccess a)
  end.
Proof.
  intros Hc. unfold bind. rewrite Hc.
  by destruct (first_unallocated _ _).
Qed.

Lemma runs_stores_descriptors w h bpp ch :
  runs_stores
    (when (nonnull w) (store_u32 w 8) ;;
     when (nonnull h) (store_u32 h 4) ;;
     when (nonnull bpp) (store_u32 bpp 8) ;;
     when (nonnull ch) (store_u32 ch 1))
    (descriptor_writes w h bpp ch).
Proof.
  unfold descriptor_writes.
  do 3 (apply runs_stores_bind; [apply runs_stores_descriptor|]).
  apply runs_stores_descriptor.
Qed.

(** The call on any memory: it performs its stores in order up to the first
    byte that is not allocated, and faults there. *)
Lemma capture_run_total handle w h bpp ch imgdata s :
  DummyGetQHYCCDSingleFrame handle w h bpp ch imgdata s =
  match first_unallocated (bytes_of (capture_writes w h bpp ch imgdata)) (mem s) with
  | None =>
      Done (capture_status imgdata)
           (after (capture_writes w h bpp ch imgdata)
                  (capture_log handle w h bpp ch imgdata) s)
  | Some a => Fault (BadAccess a)
  end.
Proof.
  pose proof (runs_stores_descriptors w h bpp ch) as Hd.
  set (s0 := after [] [LogInputs handle w h bpp ch imgdata] s).
  unfold capture_status, capture_log, capture_writes, buffer_writes.
  destruct (nonnull imgdata) eqn:Hn.
  - assert (DummyGetQHYCCDSingleFrame handle w h bpp ch imgdata s =
            bind ((when (nonnull w) (store_u32 w 8) ;;
                   when (nonnull h) (store_u32 h 4) ;;
                   when (nonnull bpp) (store_u32 bpp 8) ;;
                   when (nonnull ch) (store_u32 ch 1)) ;;
                  fill_pattern imgdata 0)
                 (fun _ => ret 0) s0) as ->.
    { unfold DummyGetQHYCCDSingleFrame, bind. rewrite Hn, fprintf_stderr_run.
      fold s0.
      destruct (when (nonnull w) (store_u32 w 8) _) as [[] s1|f1]; [|done].
      destruct (when (nonnull h) (store_u32 h 4) _) as [[] s2|f2]; [|done].
      destruct (when (nonnull bpp) (store_u32 bpp 8) _) as [[] s3|f3]; [|done].
      by destruct (when (nonnull ch) (store_u32 ch 1) _) as [[] s4|f4]. }
    rewrite (bind_runs_stores _ (descriptor_writes w h bpp ch ++ pattern_writes imgdata 0)).
    + unfold ret, s0. by rewrite after_after.
    + apply runs_stores_bind; [done|].
      apply (runs_stores_fill imgdata 32); [by apply nonnull_true|done|done].
  - assert (DummyGetQHYCCDSingleFrame handle w h bpp ch imgdata s =
            bind (when (nonnull w) (store_u32 w 8) ;;
                  when (nonnull h) (store_u32 h 4) ;;
                  when (nonnull bpp) (store_u32 bpp 8) ;;
                  when (nonnull ch) (store_u32 ch 1))
                 (fun _ => fprintf_stderr LogImgdataNull ;; ret 1) s0) as ->.
    { unfold DummyGetQHYCCDSingleFrame, bind. rewrite Hn, fprintf_stderr_run.
      fold s0.
      destruct (when (nonnull w) (store_u32 w 8) _) as [[] s1|f1]; [|done].
      destruct (when (nonnull h) (store_u32 h 4) _) as [[] s2|f2]; [|done].
      destruct (when (nonnull bpp) (store_u32 bpp 8) _) as [[] s3|f3]; [|done].
      by destruct (when (nonnull ch) (store_u32 ch 1) _) as [[] s4|f4]. }
    rewrite (bind_runs_stores _ (descriptor_writes w h bpp ch)) by done.
    rewrite app_nil_r. unfold s0 at 1. rewrite mem_after.
    change (put_bytes (bytes_of []) (mem s)) with (mem s).
    destruct (first_unallocated _ _); [done|].
    unfold bind. rewrite fprintf_stderr_run. unfold ret, s0.
    rewrite !after_after. simpl. by rewrite app_nil_r.
Qed.

End Totality.

Section WellFormed.

Implicit Types (s : machine) (m : gmap Z Z) (p a i v : Z).

Lemma descriptor_allocated m p v :
  first_unallocated (bytes_of (descriptor_write p v)) m = None ->
  negb (nonnull p) || valid_u32 m p = true.
Proof.
  unfold descriptor_write, valid_u32, is_alloc.
  destruct (nonnull p); [|done]. simpl.
  destruct (m !! p); [|done]. destruct (m !! (p + 1)); [|done].
  destruct (m !! (p + 2)); [|done]. by destruct (m !! (p + 3)).
Qed.

Lemma buffer_allocated m p :
  first_unallocated (bytes_of (buffer_writes p)) m = None ->
  negb (nonnull p) || valid_buf m p = true.
Proof.
  unfold buffer_writes. destruct (nonnull p); [|done]. cbn [negb orb].
  intros H. apply first_unallocated_None in H. rewrite Forall_forall in H.
  unfold valid_buf. apply forallb_forall. intros i Hi.
  apply (H (p + i, to_uint8 (Z.land i 255))).
  apply list_elem_of_In. unfold bytes_of, pattern_writes.
  apply in_flat_map. exists (pattern_write p i). split; [|by left].
  by apply in_map.
Qed.

(** A call is well-formed exactly when every byte it stores to is
    allocated. *)
Lemma valid_call_allocated m w h bpp ch imgdata :
  valid_call m w h bpp ch imgdata = true <->
  first_unallocated (bytes_of (capture_writes w h bpp ch imgdata)) m = None.
Proof.
  split.
  - intros Hv.
    pose proof (capture_run 0 w h bpp ch imgdata (boot m) Hv) as Hrun.
    rewrite capture_run_total in Hrun. simpl in Hrun.
    by destruct (first_unallocated _ _).
  - unfold capture_writes, descriptor_writes, valid_call.
    rewrite !bytes_of_app, !first_unallocated_app. intros H.
    destruct (first_unallocated (bytes_of (descriptor_write w 8)) m) eqn:Ew; [done|].
    destruct (first_unallocated (bytes_of (descriptor_write h 4)) m) eqn:Eh; [done|].
    destruct (first_unallocated (bytes_of (descriptor_write bpp 8)) m) eqn:Eb; [done|].
    destruct (first_unallocated (bytes_of (descriptor_write ch 1)) m) eqn:Ec; [done|].
    by rewrite (descriptor_allocated _ _ _ Ew), (descriptor_allocated _ _ _ Eh),
      (descriptor_allocated _ _ _ Eb), (descriptor_allocated _ _ _ Ec),
      (buffer_allocated _ _ H).
Qed.

(** Every byte a call stores to lies in one of its destinations. *)
Lemma capture_bytes_in_destination w h bpp ch imgdata a :
  In a (map fst (bytes_of (capture_writes w h bpp ch imgdata))) ->
  in_destination w h bpp ch imgdata a = true.
Proof.
  intros Hin. destruct (in_destination w h bpp ch imgdata a) eqn:E; [done|].
  apply final_byte_outside in E. rewrite <- last_write_capture in E.
  apply last_write_None in E. rewrite Forall_forall in E.
  apply in_map_iff in Hin as ([a' v] & <- & Hin).
  apply list_elem_of_In in Hin. by destruct (E _ Hin).
Qed.


(** The first offset of the pattern that is not allocated stops the loop. *)
Lemma first_unallocated_pattern m p (l1 l2 : list Z) k :
  forallb (fun j => is_alloc m (p + j)) l1 = true ->
  is_alloc m (p + k) = false ->
  first_unallocated (bytes_of (map (pattern_write p) (l1 ++ k :: l2))) m =
  Some (p + k).
Proof.
  unfold is_alloc. intros H1 Hk. induction l1 as [|j l1 IH]; simpl.
  - by destruct (m !! (p + k)).
  - simpl in H1. apply andb_true_iff in H1 as [Hj H1].
    destruct (m !! (p + j)); [|done]. by apply IH.
Qed.

End WellFormed.

(** ** Further properties of the two functions *)

(** X1: the call returns exactly when it is well-formed, that is when every
    non-null descriptor pointer points to four allocated bytes and a
    non-null buffer pointer to 32 allocated bytes; otherwise it faults on an
    access to a byte that is not allocated. *)
Theorem capture_returns_iff_well_formed handle w h bpp ch imgdata s :
  ((exists r s', DummyGetQHYCCDSingleFrame handle w h bpp ch imgdata s = Done r s')
   <-> valid_call (mem s) w h bpp ch imgdata = true) /\
  ((exists a, DummyGetQHYCCDSingleFrame handle w h bpp ch imgdata s =
              Fault (BadAccess a))
   <-> valid_call (mem s) w h bpp ch imgdata = false).
Proof.
  rewrite capture_run_total.
  pose proof (valid_call_allocated (mem s) w h bpp ch imgdata) as Hiff.
  destruct (first_unallocated _ _) as [a|] eqn:E.
  - assert (valid_call (mem s) w h bpp ch imgdata = false) as Hf.
    { destruct (valid_call _ _ _ _ _ _); [|done].
      discriminate (proj1 Hiff eq_refl). }
    rewrite Hf. split; split; try done.
    + by intros (r & s' & H).
    + by exists a.
  - rewrite (proj2 Hiff eq_refl). split; split; try done.
    + intros _. by eexists _, _.
    + by intros (a & H).
Qed.

(** X2: a call that faults never got outside its destinations: the fault is
    an access to a byte of one of the destinations that is not allocated
    (a descriptor pointer to fewer than four bytes, a buffer shorter than 32
    bytes), never a null dereference. *)
Theorem capture_fault_inside_destination handle w h bpp ch imgdata s f :
  DummyGetQHYCCDSingleFrame handle w h bpp ch imgdata s = Fault f ->
  exists a,
    f = BadAccess a /\
    in_destination w h bpp ch imgdata a = true /\
    mem s !! a = None.
Proof.
  rewrite capture_run_total.
  destruct (first_unallocated _ _) as [a|] eqn:E; [|done].
  intros [= <-]. exists a. apply first_unallocated_Some in E as [Hin Hnone].
  split; [done|]. split; [|done].
  by apply capture_bytes_in_destination.
Qed.

Lemma capture_fault_inside_destination_witness :
  exists a,
    BadAccess 543 = BadAccess a /\
    in_destination NULL NULL NULL NULL 512 a = true /\
    mem (boot (alloc 512 31 0 ∅)) !! a = None.
Proof.
  apply (capture_fault_inside_destination 7 NULL NULL NULL NULL 512
           (boot (alloc 512 31 0 ∅)) (BadAccess 543)).
  vm_compute. reflexivity.
Defined.



(** X4: the loop always runs through 32 offsets, whatever the caller meant
    the buffer to hold: when the descriptors are fine and offset [k < 32] is
    the first byte of the buffer that is not allocated, the call faults at
    [imgdata + k]: a buffer of fewer than 32 bytes is overrun. *)
Theorem short_buffer_overrun handle w h bpp ch imgdata s k :
  nonnull imgdata = true ->
  valid_call (mem s) w h bpp ch NULL = true ->
  0 <= k < 32 ->
  forallb (fun j => is_alloc (mem s) (imgdata + j)) (seqZ 0 k) = true ->
  is_alloc (mem s) (imgdata + k) = false ->
  DummyGetQHYCCDSingleFrame handle w h bpp ch imgdata s =
  Fault (BadAccess (imgdata + k)).
Proof.
  intros Hn Hv Hk Hpre Hbad. rewrite capture_run_total.
  apply valid_call_allocated in Hv. unfold capture_writes in *.
  rewrite bytes_of_app, first_unallocated_app in *.
  destruct (first_unallocated (bytes_of (descriptor_writes w h bpp ch)) (mem s));
    [done|].
  unfold buffer_writes, pattern_writes. rewrite Hn.
  replace (32 - 0) with (k + (1 + (31 - k))) by lia.
  rewrite seqZ_app, (seqZ_cons (0 + k)), Z.add_0_l by lia.
  by rewrite (first_unallocated_pattern _ _ _ _ _ Hpre Hbad).
Qed.

Lemma short_buffer_overrun_witness :
  DummyGetQHYCCDSingleFrame 7 256 NULL NULL NULL 512
    (boot (alloc 256 4 0 (alloc 512 20 0 ∅))) =
  Fault (BadAccess (512 + 20)).
Proof.
  apply (short_buffer_overrun 7 256 NULL NULL NULL 512
           (boot (alloc 256 4 0 (alloc 512 20 0 ∅))) 20);
    try (vm_compute; reflexivity); lia.
Defined.

(** X5: the stores of a well-formed call, in full: the constants into the
    non-null descriptors, then, for a non-null buffer, one byte store per
    offset 0, 1, ..., 31 in this order, each of the value of its offset
    (the mask and the conversion to [uint8_t] change nothing below 32). *)
Theorem capture_store_trace handle w h bpp ch imgdata s :
  valid_call (mem s) w h bpp ch imgdata = true ->
  exists r s',
    DummyGetQHYCCDSingleFrame handle w h bpp ch imgdata s = Done r s' /\
    writes s' =
      writes s ++
      (if nonnull w then [Write32 w 8] else []) ++
      (if nonnull h then [Write32 h 4] else []) ++
      (if nonnull bpp then [Write32 bpp 8] else []) ++
      (if nonnull ch then [Write32 ch 1] else []) ++
      (if nonnull imgdata
       then map (fun i => Write8 (imgdata + i) i) (seqZ 0 32)
       else []).
Proof.
  intros Hv. rewrite (capture_run _ _ _ _ _ _ _ Hv).
  assert (pattern_writes imgdata 0 =
          map (fun i => Write8 (imgdata + i) i) (seqZ 0 32)) as Hpat.
  { unfold pattern_writes. apply map_ext_in. intros i Hi.
    apply list_elem_of_In, elem_of_seqZ in Hi.
    unfold pattern_write. rewrite pattern_byte by lia.
    by rewrite Z.mod_small by lia. }
  eexists _, _. split; [done|]. cbn [after writes].
  unfold capture_writes, descriptor_writes, descriptor_write, buffer_writes.
  by rewrite Hpat, <- !app_assoc.
Qed.

Lemma capture_store_trace_witness :
  exists r s',
    DummyGetQHYCCDSingleFrame 7 256 NULL 264 NULL 512 demo = Done r s' /\
    writes s' =
      writes demo ++ [Write32 256 8] ++ [] ++ [Write32 264 8] ++ [] ++
      map (fun i => Write8 (512 + i) i) (seqZ 0 32).
Proof.
  apply (capture_store_trace 7 256 NULL 264 NULL 512 demo).
  vm_compute. reflexivity.
Defined.

(** X6: what a well-formed call prints: first the line with its six
    arguments, then the error line exactly when it returns 1, and nothing
    else. *)
Theorem error_line_iff_failure handle w h bpp ch imgdata s :
  valid_call (mem s) w h bpp ch imgdata = true ->
  exists r s' ls,
    DummyGetQHYCCDSingleFrame handle w h bpp ch imgdata s = Done r s' /\
    stderr s' = stderr s ++ LogInputs handle w h bpp ch imgdata :: ls /\
    (ls = [LogImgdataNull] /\ r = 1 \/ ls = [] /\ r = 0) /\
    (In LogImgdataNull ls <-> r = 1).
Proof.
  intros Hv. rewrite (capture_run _ _ _ _ _ _ _ Hv).
  unfold capture_status, capture_log.
  eexists _, _, _. split; [done|]. split; [done|].
  destruct (nonnull imgdata).
  - split; [by right|]. split; [by intros []|done].
  - split; [by left|]. split; [done|]. intros _. by left.
Qed.

Lemma error_line_iff_failure_witness :
  exists r s' ls,
    DummyGetQHYCCDSingleFrame 7 256 260 264 268 NULL demo = Done r s' /\
    stderr s' = stderr demo ++ LogInputs 7 256 260 264 268 NULL :: ls /\
    (ls = [LogImgdataNull] /\ r = 1 \/ ls = [] /\ r = 0) /\
    (In LogImgdataNull ls <-> r = 1).
Proof.
  apply (error_line_iff_failure 7 256 260 264 268 NULL demo).
  vm_compute. reflexivity.
Defined.


(** X8: two captures into buffers that do not meet keep both frames: when
    no destination of the second call shares a byte with the buffer of the
    first, after the two calls the first buffer still holds the pattern, and
    so does the second buffer when it is non-null. *)
Theorem captures_into_disjoint_buffers
    handle1 w1 h1 bpp1 ch1 imgdata1 handle2 w2 h2 bpp2 ch2 imgdata2 s :
  nonnull imgdata1 = true ->
  valid_call (mem s) w1 h1 bpp1 ch1 imgdata1 = true ->
  valid_call (mem s) w2 h2 bpp2 ch2 imgdata2 = true ->
  forallb (fun i => negb (in_destination w2 h2 bpp2 ch2 imgdata2 (imgdata1 + i)))
          (seqZ 0 32) = true ->
  exists r2 s'',
    (DummyGetQHYCCDSingleFrame handle1 w1 h1 bpp1 ch1 imgdata1 ;;
     DummyGetQHYCCDSingleFrame handle2 w2 h2 bpp2 ch2 imgdata2) s = Done r2 s'' /\
    (forall i, 0 <= i < 32 ->
       load_u8 (mem s'') (imgdata1 + i) = Some (i mod 256)) /\
    (nonnull imgdata2 = true -> forall i, 0 <= i < 32 ->
       load_u8 (mem s'') (imgdata2 + i) = Some (i mod 256)).
Proof.
  intros Hn Hv1 Hv2 Hdis. unfold bind.
  rewrite (capture_run _ _ _ _ _ _ _ Hv1).
  rewrite capture_run by (by apply valid_call_after).
  eexists _, _. split; [done|]. split.
  - intros i Hi. unfold load_u8. rewrite capture_frame.
    + by apply buffer_after_capture.
    + rewrite forallb_forall in Hdis. apply negb_true_iff, Hdis.
      apply list_elem_of_In, elem_of_seqZ. lia.
  - intros Hn2 i Hi. by apply buffer_after_capture.
Qed.

Lemma captures_into_disjoint_buffers_witness :
  exists r2 s'',
    (DummyGetQHYCCDSingleFrame 7 256 260 264 268 512 ;;
     DummyGetQHYCCDSingleFrame 7 256 260 264 268 1024)
      (boot (alloc 256 16 0 (alloc 512 32 0 (alloc 1024 32 0 ∅)))) = Done r2 s'' /\
    (forall i, 0 <= i < 32 -> load_u8 (mem s'') (512 + i) = Some (i mod 256)) /\
    (nonnull 1024 = true -> forall i, 0 <= i < 32 ->
       load_u8 (mem s'') (1024 + i) = Some (i mod 256)).
Proof.
  apply (captures_into_disjoint_buffers 7 256 260 264 268 512 7 256 260 264 268 1024
           (boot (alloc 256 16 0 (alloc 512 32 0 (alloc 1024 32 0 ∅)))));
    vm_compute; reflexivity.
Defined.

(** X9: the frame described matches the frame delivered: when all five
    destinations are non-null and none of them shares a byte with one
    written after it, the width, height, channel count and bits per pixel
    read back after the call multiply (at 8 bits per byte) to the number of
    bytes the call stored in the buffer. *)
Theorem frame_geometry_matches_bytes handle w h bpp ch imgdata s :
  valid_call (mem s) w h bpp ch imgdata = true ->
  nonnull w = true -> nonnull h = true -> nonnull bpp = true ->
  nonnull ch = true -> nonnull imgdata = true ->
  overlaps_cell w h = false -> overlaps_cell w bpp = false ->
  overlaps_cell w ch = false -> overlaps_buffer w imgdata = false ->
  overlaps_cell h bpp = false -> overlaps_cell h ch = false ->
  overlaps_buffer h imgdata = false ->
  overlaps_cell bpp ch = false -> overlaps_buffer bpp imgdata = false ->
  overlaps_buffer ch imgdata = false ->
  exists s' ws width height bits channels,
    DummyGetQHYCCDSingleFrame handle w h bpp ch imgdata s = Done 0 s' /\
    writes s' = writes s ++ ws /\
    load_u32 (mem s') w = Some width /\
    load_u32 (mem s') h = Some height /\
    load_u32 (mem s') bpp = Some bits /\
    load_u32 (mem s') ch = Some channels /\
    width * height * channels * (bits / 8) =
      Z.of_nat (length (List.filter is_byte_store ws)).
Proof.
  intros Hv Hw Hh Hb Hc Hi ? ? ? ? ? ? ? ? ? ?.
  rewrite (capture_run _ _ _ _ _ _ _ Hv). unfold capture_status. rewrite Hi.
  eexists _, _, _, _, _, _. split; [done|]. split; [done|].
  split; [by apply width_after_capture|].
  split; [by apply height_after_capture|].
  split; [by apply bpp_after_capture|].
  split; [by apply channels_after_capture|].
  unfold capture_writes, descriptor_writes, descriptor_write, buffer_writes,
    pattern_writes.
  rewrite Hw, Hh, Hb, Hc, Hi. by vm_compute.
Qed.

Lemma frame_geometry_matches_bytes_witness :
  exists s' ws width height bits channels,
    DummyGetQHYCCDSingleFrame 7 256 260 264 268 512 demo = Done 0 s' /\
    writes s' = writes demo ++ ws /\
    load_u32 (mem s') 256 = Some width /\
    load_u32 (mem s') 260 = Some height /\
    load_u32 (mem s') 264 = Some bits /\
    load_u32 (mem s') 268 = Some channels /\
    width * height * channels * (bits / 8) =
      Z.of_nat (length (List.filter is_byte_store ws)).
Proof.
  apply (frame_geometry_matches_bytes 7 256 260 264 268 512 demo);
    vm_compute; reflexivity.
Defined.
